(** * ci/fetch_pysteps_data.py: the test-environment bootstrapper

    The script builds an [argparse.ArgumentParser] with one positional
    argument [dest_dir] (type [str], no default), parses [sys.argv[1:]],
    then calls [download_pysteps_data(args.dest_dir, force=True)] and
    [create_default_pystepsrc(args.dest_dir)] in that order.

    Strings are sequences of characters with code points below 256
    (Rocq's [string]); on those, Python's [\d] is exactly ['0'..'9']. *)

From Stdlib Require Import String Ascii ZArith Bool Lia.
From stdpp Require Import base list gmap strings.

Local Open Scope string_scope.
Local Open Scope list_scope.

(** ** The parser of lines 10-15

    [argparse] is CPython's standard library.  The definitions below follow
    Lib/argparse.py (CPython 3.11) specialised to the parser the script
    builds: prefix character
    ['-'], the automatically added help action with option strings [-h] and
    [--help] (nargs 0), abbreviations allowed, no option that looks like a
    negative number, and the single positional [dest_dir] with nargs [None]
    and [type=str]. *)
Module Argparse.

(** The optional actions of the parser: only the help action. *)
Inductive action : Type :=
  | HelpAction.

(** [self._option_string_actions], in insertion order. *)
Definition _option_string_actions : list (string * action) :=
  [("-h", HelpAction); ("--help", HelpAction)].

Definition lookup_option (s : string) : option action :=
  snd <$> List.find (fun '(o, _) => String.eqb o s) _option_string_actions.

(** An option tuple [(action, option_string, explicit_arg)]; the action is
    [None] for a string that looks like an option the parser does not have. *)
Record option_tuple : Type := OptionTuple {
  ot_action : option action;
  ot_option_string : string;
  ot_explicit_arg : option string
}.

(** What [_parse_optional] does with one argument string: it returns [None]
    (a positional), returns an option tuple, or calls [self.error] on an
    ambiguous abbreviation. *)
Inductive parsed_optional : Type :=
  | Positional
  | Optional (t : option_tuple)
  | Ambiguous (matches : list option_tuple).

(** [s.split('=', 1)] for a string that contains ['=']; [None] otherwise. *)
Fixpoint split_eq (s : string) : option (string * string) :=
  match s with
  | EmptyString => None
  | String c r =>
      if Ascii.eqb c "="%char then Some (EmptyString, r)
      else match split_eq r with
           | Some (a, b) => Some (String c a, b)
           | None => None
           end
  end.

Fixpoint contains_char (c : ascii) (s : string) : bool :=
  match s with
  | EmptyString => false
  | String d r => Ascii.eqb c d || contains_char c r
  end.

Definition is_digit (c : ascii) : bool :=
  (48 <=? nat_of_ascii c)%nat && (nat_of_ascii c <=? 57)%nat.

Fixpoint all_digits (s : string) : bool :=
  match s with
  | EmptyString => true
  | String c r => is_digit c && all_digits r
  end.

(** [\d*\.\d+] anchored at both ends. *)
Fixpoint digits_dot_digits (s : string) : bool :=
  match s with
  | EmptyString => false
  | String c r =>
      if Ascii.eqb c "."%char
      then negb (String.eqb r EmptyString) && all_digits r
      else is_digit c && digits_dot_digits r
  end.

(** Python's [$] also matches just before a newline that ends the string. *)
Fixpoint strip_final_newline (s : string) : string :=
  match s with
  | EmptyString => EmptyString
  | String c r =>
      if Ascii.eqb c "010"%char && String.eqb r EmptyString then EmptyString
      else String c (strip_final_newline r)
  end.

(** [self._negative_number_matcher.match], the pattern
    [^-\d+$|^-\d*\.\d+$]. *)
Definition _negative_number_matcher (s : string) : bool :=
  match strip_final_newline s with
  | String c r =>
      Ascii.eqb c "-"%char
      && ((negb (String.eqb r EmptyString) && all_digits r)
          || digits_dot_digits r)
  | EmptyString => false
  end.

(** [self._get_option_tuples(option_string)], called on strings of length at
    least two whose first character is ['-']. *)
Definition _get_option_tuples (option_string : string) : list option_tuple :=
  match option_string with
  | String c0 (String c1 rest) =>
      if Ascii.eqb c1 "-"%char then
        (* two prefix characters: only split at the '=' *)
        let '(option_prefix, explicit_arg) :=
          match split_eq option_string with
          | Some (p, e) => (p, Some e)
          | None => (option_string, None)
          end in
        omap (fun '(o, a) =>
                if String.prefix option_prefix o
                then Some (OptionTuple (Some a) o explicit_arg) else None)
             _option_string_actions
      else
        (* a single-character option may be glued to its argument *)
        let short_option_prefix := String c0 (String c1 EmptyString) in
        let short_explicit_arg := rest in
        omap (fun '(o, a) =>
                if String.eqb o short_option_prefix
                then Some (OptionTuple (Some a) o (Some short_explicit_arg))
                else if String.prefix option_string o
                then Some (OptionTuple (Some a) o None) else None)
             _option_string_actions
  | _ => []
  end.

Definition _parse_optional (arg_string : string) : parsed_optional :=
  match arg_string with
  | EmptyString => Positional
  | String c0 rest =>
      if negb (Ascii.eqb c0 "-"%char) then Positional
      else match lookup_option arg_string with
      | Some a => Optional (OptionTuple (Some a) arg_string None)
      | None =>
      if String.eqb rest EmptyString then Positional
      else
        let by_equals :=
          match split_eq arg_string with
          | Some (o, e) =>
              match lookup_option o with
              | Some a => Some (OptionTuple (Some a) o (Some e))
              | None => None
              end
          | None => None
          end in
        match by_equals with
        | Some t => Optional t
        | None =>
            match _get_option_tuples arg_string with
            | _ :: _ :: _ as ts => Ambiguous ts
            | [t] => Optional t
            | [] =>
                if _negative_number_matcher arg_string then Positional
                else if contains_char " "%char arg_string then Positional
                else Optional (OptionTuple None arg_string None)
            end
        end
      end
  end.

(** The value stored for [dest_dir]: [_get_values] yields the string itself
    when exactly one argument string is left, and a list otherwise. *)
Inductive value : Type :=
  | Str (s : string)
  | StrList (l : list string).

(** What is written before the process exits. *)
Inductive message : Type :=
  | HelpText
  | ErrAmbiguousOption (arg : string)
  | ErrIgnoredExplicitArgument (explicit_arg : string)
  | ErrRequired (names : list string)
  | ErrUnrecognized (extras : list string).

(** [parse_args] returns the namespace or leaves through [sys.exit(status)]:
    [parser.exit()] after the help text (status 0), [parser.error] (status 2). *)
Inductive parse_result : Type :=
  | Namespace (dest_dir : value)
  | SystemExit (status : Z) (msg : message).

Definition error (msg : message) : parse_result := SystemExit 2 msg.

(** One character of [arg_strings_pattern], with the option tuple recorded
    in [option_string_indices] for an ['O']. *)
Inductive pattern : Type :=
  | A
  | O (t : option_tuple)
  | Dashes.

Definition is_option (p : string * pattern) : bool :=
  match p.2 with O _ => true | _ => false end.

Definition tag_A (ss : list string) : list (string * pattern) :=
  (fun s => (s, A)) <$> ss.

(** The first phase of [_parse_known_args]: every argument string gets its
    pattern character; after the first ["--"] everything is an ['A'].  An
    ambiguous abbreviation is an error raised from this phase. *)
Fixpoint index_args (arg_strings : list string)
    : message + list (string * pattern) :=
  match arg_strings with
  | [] => inr []
  | arg_string :: rest =>
      if String.eqb arg_string "--"
      then inr ((arg_string, Dashes) :: tag_A rest)
      else match _parse_optional arg_string with
           | Ambiguous _ => inl (ErrAmbiguousOption arg_string)
           | Positional => sum_map id (cons (arg_string, A)) (index_args rest)
           | Optional t => sum_map id (cons (arg_string, O t)) (index_args rest)
           end
  end.

(** The parts of the parser state that change while parsing: the
    positionals still to be parsed ([dest_dir] or nothing), the namespace
    attribute, and the extras. *)
Record state : Type := State {
  positionals : list unit;
  ns_dest_dir : option value;
  extras : list string
}.

Definition initial_state : state := State [()] None [].

Definition add_extras (st : state) (ss : list string) : state :=
  State (positionals st) (ns_dest_dir st) (extras st ++ ss).

Definition second_is_prefix_char (s : string) : bool :=
  match s with
  | String _ (String c _) => Ascii.eqb c "-"%char
  | _ => false
  end.

(** The [while True] loop of [consume_optional] for the help action, which
    takes no argument ([arg_count] is 0) and, once taken, prints the help and
    exits with status 0.  A single-dash option with a non-empty explicit
    argument tries the tail as further single-dash options. *)
Fixpoint consume_explicit (option_string explicit_arg : string) : parse_result :=
  match explicit_arg with
  | String c tail =>
      if negb (second_is_prefix_char option_string) then
        let option_string' := String "-"%char (String c EmptyString) in
        match lookup_option option_string' with
        | Some HelpAction =>
            match tail with
            | EmptyString => SystemExit 0 HelpText
            | _ => consume_explicit option_string' tail
            end
        | None => error (ErrIgnoredExplicitArgument explicit_arg)
        end
      else error (ErrIgnoredExplicitArgument explicit_arg)
  | EmptyString => error (ErrIgnoredExplicitArgument explicit_arg)
  end.

(** [consume_optional]: [None] when the string is no option of this parser
    (it is appended to the extras and parsing goes on), otherwise the way
    the process exits. *)
Definition consume_optional (t : option_tuple) : option parse_result :=
  match ot_action t with
  | None => None
  | Some HelpAction =>
      match ot_explicit_arg t with
      | None => Some (SystemExit 0 HelpText)
      | Some e => Some (consume_explicit (ot_option_string t) e)
      end
  end.

Fixpoint count_dashes (l : list (string * pattern)) : nat :=
  match l with
  | (_, Dashes) :: r => S (count_dashes r)
  | _ => 0
  end.

(** The nargs pattern of [dest_dir] matched at the start of the pattern
    (any dashes, one ['A'], any dashes): the length of the match, if any. *)
Definition match_nargs_none (l : list (string * pattern)) : option nat :=
  let d := count_dashes l in
  match drop d l with
  | (_, A) :: r => Some (d + 1 + count_dashes r)
  | _ => None
  end.

(** [arg_strings.remove('--')], ignoring the [ValueError]. *)
Fixpoint remove_first_dashes (l : list string) : list string :=
  match l with
  | [] => []
  | s :: r => if String.eqb s "--" then r else s :: remove_first_dashes r
  end.

(** [_get_values] for nargs [None] and [type=str]. *)
Definition _get_values (arg_strings : list string) : value :=
  match remove_first_dashes arg_strings with
  | [arg_string] => Str arg_string
  | l => StrList l
  end.

(** [consume_positionals(start_index)] on the arguments from [start_index]
    on; returns the new state and the arguments not consumed. *)
Definition consume_positionals (st : state) (l : list (string * pattern))
    : state * list (string * pattern) :=
  match positionals st with
  | [] => (st, l)
  | _ :: ps =>
      match match_nargs_none l with
      | None => (st, l)
      | Some arg_count =>
          (State ps (Some (_get_values (fst <$> take arg_count l))) (extras st),
           drop arg_count l)
      end
  end.

(** The loop [while start_index <= max_option_string_index], one argument
    string per step.  All options precede the first ["--"], so while an
    option lies ahead the string at [start_index] is an ['O'] or an ['A']:
    an ['A'] is taken by [consume_positionals] if [dest_dir] is still to be
    parsed (the match has length one) and otherwise joins the extras up to
    the next option.  The loop returns the state and the strings from
    [start_index] on once no option is left. *)
Fixpoint consume_alternately (st : state) (l : list (string * pattern))
    : parse_result + state * list (string * pattern) :=
  match l with
  | [] => inr (st, [])
  | (s, p) :: tl =>
      if negb (existsb is_option l) then inr (st, l)
      else match p with
           | O t =>
               match consume_optional t with
               | Some exit => inl exit
               | None => consume_alternately (add_extras st [s]) tl
               end
           | _ =>
               let '(st', l') := consume_positionals st [(s, p)] in
               match l' with
               | [] => consume_alternately st' tl
               | _ => consume_alternately (add_extras st [s]) tl
               end
           end
  end.

(** [_parse_known_args] after the indexing phase, from a given state: the
    alternation loop, the positionals after the last option, the extras,
    and the check that [dest_dir] was seen.  It returns the namespace
    attribute and the extras, or the way the process exits. *)
Definition parse_indexed (st : state) (l : list (string * pattern))
    : parse_result + value * list string :=
  match consume_alternately st l with
  | inl exit => inl exit
  | inr (st1, l1) =>
      let '(st2, l2) := consume_positionals st1 l1 in
      match ns_dest_dir st2 with
      | None => inl (error (ErrRequired ["dest_dir"]))
      | Some v => inr (v, extras st2 ++ (fst <$> l2))
      end
  end.

Definition _parse_known_args (arg_strings : list string)
    : parse_result + value * list string :=
  match index_args arg_strings with
  | inl msg => inl (error msg)
  | inr indexed => parse_indexed initial_state indexed
  end.

(** [parser.parse_args()]: leftover argument strings are an error. *)
Definition parse_args (args : list string) : parse_result :=
  match _parse_known_args args with
  | inl exit => exit
  | inr (v, []) => Namespace v
  | inr (_, argv) => error (ErrUnrecognized argv)
  end.

(** *** Vocabulary for statements about a command line *)

(** The command lines that give [dest_dir] the string [d]: the string alone
    when the parser reads it as a positional, or next to the separator. *)
Definition binds (argv : list string) (d : string) : Prop :=
  (argv = [d] /\ _parse_optional d = Positional)
  \/ argv = ["--"; d]
  \/ (argv = [d; "--"] /\ _parse_optional d = Positional).

(** The pattern of a command line ([[]] if indexing fails, which it never
    does for this parser). *)
Definition indexed (argv : list string) : list (string * pattern) :=
  match index_args argv with
  | inr l => l
  | inl _ => []
  end.

Definition is_positional (p : string * pattern) : bool :=
  match p.2 with A => true | _ => false end.

(** Number of argument strings the parser reads as positionals. *)
Definition positional_count (argv : list string) : nat :=
  length (List.filter is_positional (indexed argv)).

(** An argument string that looks like an option the parser does not have. *)
Definition is_unknown_option (p : string * pattern) : bool :=
  match p.2 with
  | O t => match ot_action t with None => true | Some _ => false end
  | _ => false
  end.

Definition has_unknown_option (argv : list string) : bool :=
  existsb is_unknown_option (indexed argv).

(** The exit, if any, that an argument string causes when it is consumed. *)
Definition option_exit (p : string * pattern) : option parse_result :=
  match p.2 with
  | O t => consume_optional t
  | _ => None
  end.

Definition first_option_exit (l : list (string * pattern))
    : option parse_result :=
  head (omap option_exit l).

(** The first argument string that makes the parser leave is a request for
    help ([-h], [--help], an abbreviation of it, or [-hh...]). *)
Definition help_reached (argv : list string) : bool :=
  match first_option_exit (indexed argv) with
  | Some (SystemExit 0 _) => true
  | _ => false
  end.

(** An argument string read as an option that is not a proper request for
    help: an unknown option, or help glued to an argument. *)
Definition is_malformed (p : string * pattern) : bool :=
  match p.2 with
  | O t => match consume_optional t with
           | Some (SystemExit 0 _) => false
           | _ => true
           end
  | _ => false
  end.


End Argparse.

(** ** The script body (lines 6-18)

    [download_pysteps_data] and [create_default_pystepsrc] belong to the
    pysteps library: they are parameters of the script.  Each takes the
    state of the outside world (file system, network, environment) and
    leaves a new one, either returning or raising. *)
Module Bootstrapper.
Import Argparse.

(** How a library call ends: it returns, or an exception (anything but
    [SystemExit]) leaves it. *)
Inductive outcome : Type :=
  | Returned
  | Raised (exc : string).

Inductive call : Type :=
  | Download (dir_path : value) (force : bool)
  | CreatePystepsrc (pysteps_data_dir : value).

(** What the process writes to its standard streams. *)
Inductive report : Type :=
  | Silent
  | ParserMessage (m : message)
  | Traceback (exc : string).

(** One execution of the script: the exit status of the process, the calls
    made to the library with their outcomes in order, the world it leaves. *)
Record run (World : Type) : Type := Run {
  exit_status : Z;
  trace : list (call * outcome);
  final : World;
  printed : report
}.
Arguments Run {World} _ _ _ _.
Arguments exit_status {World} _.
Arguments trace {World} _.
Arguments final {World} _.
Arguments printed {World} _.

Section Script.
Context {World : Type}.
Variable download_pysteps_data : value -> bool -> World -> World * outcome.
Variable create_default_pystepsrc : value -> World -> World * outcome.

(** The block under [if __name__ == "__main__":], run with
    [sys.argv[1:] = argv].  [SystemExit] from the parser ends the process
    with its status; an exception that leaves a library call is not caught:
    the interpreter prints the traceback and exits with status 1; falling
    off the end exits with status 0. *)
Definition __main__ (argv : list string) (w : World) : run World :=
  match parse_args argv with
  | SystemExit status msg => Run status [] w (ParserMessage msg)
  | Namespace dest_dir =>
      let '(w1, o1) := download_pysteps_data dest_dir true w in
      match o1 with
      | Raised exc => Run 1 [(Download dest_dir true, o1)] w1 (Traceback exc)
      | Returned =>
          let '(w2, o2) := create_default_pystepsrc dest_dir w1 in
          let calls := [(Download dest_dir true, o1);
                        (CreatePystepsrc dest_dir, o2)] in
          match o2 with
          | Raised exc => Run 1 calls w2 (Traceback exc)
          | Returned => Run 0 calls w2 Silent
          end
      end
  end.

(** Importing the module instead of running it executes nothing. *)
Definition fetch_pysteps_data (__name__ : string) (argv : list string)
    (w : World) : option (run World) :=
  if String.eqb __name__ "__main__" then Some (__main__ argv w) else None.

(** The four ways a run can go, with the string bound to [dest_dir]. *)
Inductive run_of (argv : list string) (w : World) : run World -> Prop :=
  | run_parser_exit c m :
      parse_args argv = SystemExit c m ->
      run_of argv w (Run c [] w (ParserMessage m))
  | run_download_raised d w1 exc :
      parse_args argv = Namespace (Str d) -> binds argv d ->
      download_pysteps_data (Str d) true w = (w1, Raised exc) ->
      run_of argv w
        (Run 1 [(Download (Str d) true, Raised exc)] w1 (Traceback exc))
  | run_config_raised d w1 w2 exc :
      parse_args argv = Namespace (Str d) -> binds argv d ->
      download_pysteps_data (Str d) true w = (w1, Returned) ->
      create_default_pystepsrc (Str d) w1 = (w2, Raised exc) ->
      run_of argv w
        (Run 1 [(Download (Str d) true, Returned);
                (CreatePystepsrc (Str d), Raised exc)] w2 (Traceback exc))
  | run_done d w1 w2 :
      parse_args argv = Namespace (Str d) -> binds argv d ->
      download_pysteps_data (Str d) true w = (w1, Returned) ->
      create_default_pystepsrc (Str d) w1 = (w2, Returned) ->
      run_of argv w
        (Run 0 [(Download (Str d) true, Returned);
                (CreatePystepsrc (Str d), Returned)] w2 Silent).

End Script.

(** *** Vocabulary for statements about a run *)
Section Observations.
Context {World : Type}.

Definition is_download (e : call * outcome) : bool :=
  match e.1 with Download _ _ => true | CreatePystepsrc _ => false end.

Definition is_config_write (e : call * outcome) : bool :=
  match e.1 with CreatePystepsrc _ => true | Download _ _ => false end.

Definition returned (e : call * outcome) : bool :=
  match e.2 with Returned => true | Raised _ => false end.

Definition download_succeeded (r : run World) : bool :=
  existsb (fun e => is_download e && returned e) (trace r).

Definition download_failed (r : run World) : bool :=
  existsb (fun e => is_download e && negb (returned e)) (trace r).

Definition config_write_succeeded (r : run World) : bool :=
  existsb (fun e => is_config_write e && returned e) (trace r).

Definition config_write_failed (r : run World) : bool :=
  existsb (fun e => is_config_write e && negb (returned e)) (trace r).

Definition config_write_attempted (r : run World) : bool :=
  existsb is_config_write (trace r).

(** The path argument of a call and, for a download, its force flag. *)
Definition call_path (c : call) : value :=
  match c with
  | Download dir_path _ => dir_path
  | CreatePystepsrc pysteps_data_dir => pysteps_data_dir
  end.

Definition forced (c : call) : bool :=
  match c with
  | Download _ force => force
  | CreatePystepsrc _ => true
  end.

(** The process failed with a usage error of the parser: status 2, a
    message on the error stream that is not the help text. *)
Definition usage_error (r : run World) : Prop :=
  exit_status r = 2%Z
  /\ exists m, printed r = ParserMessage m /\ m <> HelpText.
End Observations.

End Bootstrapper.

(** ** The two collaborators, as the design describes them

    Files are a finite map from paths to contents. *)
Module Collaborators.
Import Argparse Bootstrapper.

(** The files of the tree rooted at directory [d]: the paths [d/...]. *)
Definition under (d p : string) : bool := String.prefix (d +:+ "/") p.

(** The state of the outside world. *)
Record world : Type := World {
  files : gmap string string;
  requests : list string;        (* network requests made so far *)
  online : bool;                 (* the remote dataset can be fetched *)
  config_writable : bool         (* the configuration file can be written *)
}.

(** Modelled from the spec: the conventional location of the configuration
    record, chosen by the configuration writer (pysteps, not under src/). *)
Definition pystepsrc : string := "~/.pysteps/pystepsrc".

(** Modelled from the spec: the fixed reference dataset, as file names
    relative to the destination directory (its real contents are defined by
    the dataset provider, not under src/). *)
Definition reference_dataset : list (string * string) :=
  [("README", "reference data"); ("radar/sample.dat", "0123")].

Definition dataset (d : string) : gmap string string :=
  list_to_map ((fun '(n, c) => ((d +:+ "/") +:+ n, c)) <$> reference_dataset).

Definition has_data (d : string) (w : world) : bool :=
  bool_decide (filter (fun kv => under d kv.1 = true) (files w) ≠ ∅).

(** Modelled from the spec: the dataset provider
    [fetch(destination_path, force)] of pysteps (its code is not under
    src/).  With force, data already at the destination is overwritten, not
    merged and not skipped: the tree holds the reference dataset and nothing
    else.  Without force, existing data is left as it is.  The fetch fails
    when the dataset cannot be downloaded. *)
Definition fetch (dir_path : value) (force : bool) (w : world)
    : world * outcome :=
  match dir_path with
  | StrList _ => (w, Raised "TypeError")
  | Str d =>
      if negb force && has_data d w then (w, Returned)
      else
        let asked := requests w ++ ["pysteps-data"] in
        if online w then
          (World (dataset d ∪ filter (fun kv => under d kv.1 = false) (files w))
                 asked (online w) (config_writable w),
           Returned)
        else
          (World (files w) asked (online w) (config_writable w),
           Raised "acquisition error")
  end.

(** Modelled from the spec: the configuration writer
    [write_default_config(dataset_root_path)] of pysteps (its code is not
    under src/): it writes, at its conventional location, a record whose
    dataset path is its argument, or fails. *)
Definition write_default_config (pysteps_data_dir : value) (w : world)
    : world * outcome :=
  match pysteps_data_dir with
  | StrList _ => (w, Raised "TypeError")
  | Str d =>
      if config_writable w then
        (World (<[pystepsrc := d]> (files w))
               (requests w) (online w) (config_writable w),
         Returned)
      else (w, Raised "write error")
  end.

(** A world with nothing on disk where everything works. *)
Definition fresh : world := World ∅ [] true true.

(** The script run with these collaborators. *)
Definition bootstrap : list string -> world -> run world :=
  __main__ fetch write_default_config.

(** A world in which the dataset cannot be fetched. *)
Definition offline : world := World ∅ [] false true.

(** The world after a first run with ["/tmp/test_env"], with a marker file
    put into the dataset tree. *)
Definition marked : world :=
  let w := final (bootstrap ["/tmp/test_env"] fresh) in
  World (<["/tmp/test_env/marker" := "x"]> (files w))
        (requests w) (online w) (config_writable w).

(** *** What the design asks of any dataset provider and configuration
    writer, over any type of worlds with observable files and requests *)
Section Contracts.
Context {W : Type}.
Variable observed_files : W -> gmap string string.
Variable observed_requests : W -> list string.
Variable download : value -> bool -> W -> W * outcome.
Variable create : value -> W -> W * outcome.

(** Modelled from the spec: the provider writes only in the dataset tree
    under the destination directory. *)
Definition fetch_writes_under_destination : Prop :=
  forall d f w p, under d p = false ->
    observed_files (download (Str d) f w).1 !! p = observed_files w !! p.

(** Modelled from the spec: force semantics.  After a forced fetch that
    succeeds the tree under the destination holds exactly the reference
    dataset [data d]: what was there is overwritten, not merged. *)
Definition fetch_overwrites (data : string -> gmap string string) : Prop :=
  forall d w w', download (Str d) true w = (w', Returned) ->
    forall p, under d p = true -> observed_files w' !! p = data d !! p.

(** Modelled from the spec: the writer writes only the configuration file
    at its conventional path [rc]. *)
Definition config_writes_at (rc : string) : Prop :=
  forall d w p, p <> rc ->
    observed_files (create (Str d) w).1 !! p = observed_files w !! p.

(** Modelled from the spec: the record the writer leaves at [rc] has the
    writer's argument as its dataset path. *)
Definition config_points_at (rc : string) : Prop :=
  forall d w w', create (Str d) w = (w', Returned) ->
    observed_files w' !! rc = Some d.

(** Modelled from the spec: the writer does not use the network. *)
Definition config_is_offline : Prop :=
  forall d w, observed_requests (create (Str d) w).1 = observed_requests w.
End Contracts.

End Collaborators.

(** ** More vocabulary for command lines *)
Module CommandLine.
Import Argparse.

(** The pattern character of an argument string other than ["--"]. *)
Definition kind (s : string) : pattern :=
  match _parse_optional s with
  | Optional t => O t
  | _ => A
  end.

(** Requests for help: [-h], [--help] and its abbreviations. *)
Definition help_requests : list string :=
  ["-h"; "--h"; "--he"; "--hel"; "--help"].

Definition is_help_request (s : string) : bool :=
  existsb (String.eqb s) help_requests.

(** An argument string read as a positional. *)
Definition reads_as_positional (s : string) : bool :=
  match _parse_optional s with Positional => true | _ => false end.

(** An argument string read as an option the parser does not have. *)
Definition looks_unknown (s : string) : bool :=
  match _parse_optional s with
  | Optional t => match ot_action t with None => true | Some _ => false end
  | _ => false
  end.

(** An argument string the parser goes past without leaving. *)
Definition passes_by (s : string) : bool :=
  reads_as_positional s || looks_unknown s.

End CommandLine.

(** A world in which the configuration file cannot be written. *)
Definition unwritable : Collaborators.world :=
  Collaborators.World ∅ [] true false.

(** ** docs/conf.py: the configuration of the documentation build

    The module only binds names.  The one value with behaviour is the
    regular expression [filename_pattern]: sphinx-gallery runs the example
    files whose path it finds the pattern in ([re.search]). *)
Module Conf.

Definition project : string := "pysteps_tutorials".
Definition copyright : string := "2022, Pysteps developers".
Definition author : string := "Pysteps developers".
Definition extensions : list string := ["sphinx_gallery.gen_gallery"].
Definition filename_pattern : string := "/*\.py".
Definition sphinx_gallery_conf : list (string * string) :=
  [("examples_dirs", "../examples");
   ("gallery_dirs", "example_gallery");
   ("filename_pattern", filename_pattern)].
Definition exclude_patterns : list string := ["_build"; "Thumbs.db"; ".DS_Store"].
Definition html_theme : string := "sphinx_rtd_theme".

End Conf.

(** ** Regular expressions

    The part of Python's [re] syntax that [filename_pattern] is written in:
    literal characters, [.], escaped punctuation and the star.  [compile]
    gives [None] for every other pattern.  Whether a pattern is found in a
    string does not depend on how the matcher searches, so it is decided
    here with derivatives. *)
Module Re.

(** The abstract syntax of a pattern. *)
Inductive regex : Type :=
  | Void
  | Eps
  | AnyChar
  | Lit (c : ascii)
  | Cat (r1 r2 : regex)
  | Alt (r1 r2 : regex)
  | Star (r : regex).

(** [.] matches any character but the newline. *)
Definition is_newline (c : ascii) : bool := Ascii.eqb c "010"%char.

Definition is_special (c : ascii) : bool :=
  existsb (Ascii.eqb c)
    ["."; "^"; "$"; "*"; "+"; "?"; "{"; "}"; "["; "]"; "\"; "|"; "("; ")"]%char.

(** Letters, digits and the underscore: a backslash before one of these
    does not give that character. *)
Definition is_alnum (c : ascii) : bool :=
  let n := nat_of_ascii c in
  ((48 <=? n) && (n <=? 57) || (65 <=? n) && (n <=? 90)
   || (97 <=? n) && (n <=? 122) || (n =? 95))%nat.

Fixpoint sequence (atoms : list regex) : regex :=
  match atoms with
  | [] => Eps
  | [r] => r
  | r :: rest => Cat r (sequence rest)
  end.

(** The pattern read from left to right: [done] holds the finished pieces,
    [last] the piece a following star applies to.  A star with nothing
    before it, or right after another star, is an error. *)
Fixpoint parse (done : list regex) (last : option regex) (pattern : string)
    : option (list regex) :=
  let push := match last with Some r => done ++ [r] | None => done end in
  match pattern with
  | EmptyString => Some push
  | String c rest =>
      if Ascii.eqb c "\"%char then
        match rest with
        | String e rest' =>
            if is_alnum e || (128 <=? nat_of_ascii e)%nat then None
            else parse push (Some (Lit e)) rest'
        | EmptyString => None
        end
      else if Ascii.eqb c "*"%char then
        match last with
        | Some r => parse (done ++ [Star r]) None rest
        | None => None
        end
      else if Ascii.eqb c "."%char then parse push (Some AnyChar) rest
      else if is_special c then None
      else parse push (Some (Lit c)) rest
  end.

(** [re.compile], on the patterns of this syntax. *)
Definition compile (pattern : string) : option regex :=
  sequence <$> parse [] None pattern.

(** The pattern matches the empty string. *)
Fixpoint nullable (r : regex) : bool :=
  match r with
  | Void | AnyChar | Lit _ => false
  | Eps | Star _ => true
  | Cat r1 r2 => nullable r1 && nullable r2
  | Alt r1 r2 => nullable r1 || nullable r2
  end.

(** What is left of the pattern after the character [c]. *)
Fixpoint deriv (c : ascii) (r : regex) : regex :=
  match r with
  | Void | Eps => Void
  | AnyChar => if is_newline c then Void else Eps
  | Lit d => if Ascii.eqb c d then Eps else Void
  | Cat r1 r2 =>
      if nullable r1 then Alt (Cat (deriv c r1) r2) (deriv c r2)
      else Cat (deriv c r1) r2
  | Alt r1 r2 => Alt (deriv c r1) (deriv c r2)
  | Star r1 => Cat (deriv c r1) (Star r1)
  end.

(** [re.match] as a truth value: the pattern matches at the start. *)
Fixpoint match_here (r : regex) (s : string) : bool :=
  nullable r
  || match s with
     | EmptyString => false
     | String c rest => match_here (deriv c r) rest
     end.

(** [re.search] as a truth value: the pattern matches somewhere. *)
Fixpoint search_from (r : regex) (s : string) : bool :=
  match_here r s
  || match s with
     | EmptyString => false
     | String _ rest => search_from r rest
     end.

Definition search (pattern s : string) : option bool :=
  (fun r => search_from r s) <$> compile pattern.

(** The strings a pattern matches as a whole. *)
Inductive matches : regex -> string -> Prop :=
  | matches_eps : matches Eps ""
  | matches_any c : is_newline c = false -> matches AnyChar (String c "")
  | matches_lit c : matches (Lit c) (String c "")
  | matches_cat r1 r2 s1 s2 :
      matches r1 s1 -> matches r2 s2 -> matches (Cat r1 r2) (s1 +:+ s2)
  | matches_alt_l r1 r2 s : matches r1 s -> matches (Alt r1 r2) s
  | matches_alt_r r1 r2 s : matches r2 s -> matches (Alt r1 r2) s
  | matches_star_nil r : matches (Star r) ""
  | matches_star_app r s1 s2 :
      matches r s1 -> matches (Star r) s2 -> matches (Star r) (s1 +:+ s2).

End Re.


(** * Properties *)

Import Argparse Bootstrapper Collaborators.

(** ** The parser *)

Lemma tag_A_no_option ss : existsb is_option (tag_A ss) = false.
Proof. induction ss as [|s ss IH]; [done|]. by cbn. Qed.


Lemma tag_A_no_dashes ss : count_dashes (tag_A ss) = 0.
Proof. by destruct ss. Qed.

Lemma tag_A_fst ss : (tag_A ss).*1 = ss.
Proof. induction ss as [|s ss IH]; [done|]. unfold tag_A in *. cbn. by f_equal. Qed.

Lemma index_args_fst argv l : index_args argv = inr l -> l.*1 = argv.
Proof.
  revert l. induction argv as [|a rest IH]; intros l H; cbn in H.
  - by inversion H.
  - destruct (String.eqb a "--").
    + inversion H; subst. cbn -[tag_A]. f_equal. apply tag_A_fst.
    + destruct (_parse_optional a); try discriminate;
        destruct (index_args rest) as [m|l'] eqn:E; cbn in H; try discriminate;
        inversion H; subst; cbn; f_equal; by apply IH.
Qed.

(** [consume_explicit] and [consume_optional] never hand back a namespace:
    they leave with status 0 after the help text or with status 2. *)
Lemma consume_explicit_exits o e :
  consume_explicit o e = SystemExit 0 HelpText
  \/ exists m, consume_explicit o e = SystemExit 2 m /\ m <> HelpText.
Proof.
  revert o. induction e as [|c tail IH]; intros o; cbn [consume_explicit].
  - right. eexists. split; [done|discriminate].
  - destruct (second_is_prefix_char o); cbn [negb].
    + right. eexists. split; [done|discriminate].
    + destruct (lookup_option _) as [[]|].
      * destruct tail; [by left|]. apply IH.
      * right. eexists. split; [done|discriminate].
Qed.

Lemma consume_optional_exits t r :
  consume_optional t = Some r ->
  r = SystemExit 0 HelpText \/ exists m, r = SystemExit 2 m /\ m <> HelpText.
Proof.
  unfold consume_optional. destruct (ot_action t) as [[]|]; [|done].
  destruct (ot_explicit_arg t) as [e|]; intros [= <-]; [|by left].
  apply consume_explicit_exits.
Qed.

Lemma consume_positionals_extras st l st' l' :
  consume_positionals st l = (st', l') -> extras st' = extras st.
Proof.
  unfold consume_positionals.
  destruct (positionals st); [by intros [= <- <-]|].
  destruct (match_nargs_none l); by intros [= <- <-].
Qed.

(** The alternation loop leaves exactly when it meets an option string that
    [consume_optional] acts on, and then the way that one says. *)
Lemma consume_alternately_exit st l :
  match consume_alternately st l with
  | inl r => first_option_exit l = Some r
  | inr _ => first_option_exit l = None
  end.
Proof.
  revert st. induction l as [|[s p] tl IH]; intros st; [done|].
  cbn [consume_alternately].
  destruct (existsb is_option ((s, p) :: tl)) eqn:E; cbn [negb].
  - destruct p as [|t|].
    + unfold first_option_exit. cbn.
      destruct (consume_positionals st [(s, A)]) as [st' [|? ?]]; apply IH.
    + unfold first_option_exit. cbn.
      destruct (consume_optional t) as [r|] eqn:Et; [done|]. apply IH.
    + unfold first_option_exit. cbn.
      destruct (consume_positionals st [(s, Dashes)]) as [st' [|? ?]]; apply IH.
  - unfold first_option_exit.
    assert (omap option_exit ((s, p) :: tl) = []) as ->; [|done].
    clear -E. revert E. generalize ((s, p) :: tl). intros l.
    induction l as [|[s' [|t|]] l IH]; cbn; try done; intros E; by apply IH.
Qed.

Lemma consume_alternately_extras st l st' l' :
  consume_alternately st l = inr (st', l') ->
  exists e, extras st' = extras st ++ e.
Proof.
  revert st. induction l as [|[s p] tl IH]; intros st; cbn [consume_alternately].
  - intros [= <- <-]. exists []. by rewrite app_nil_r.
  - destruct (existsb is_option ((s, p) :: tl)); cbn [negb].
    2:{ intros [= <- <-]. exists []. by rewrite app_nil_r. }
    assert (forall q, q = A \/ q = Dashes ->
      (let '(st1, l1) := consume_positionals st [(s, q)] in
       match l1 with
       | [] => consume_alternately st1 tl
       | _ :: _ => consume_alternately (add_extras st [s]) tl
       end) = inr (st', l') -> exists e, extras st' = extras st ++ e) as HA.
    { intros q _.
      destruct (consume_positionals st [(s, q)]) as [st1 l1] eqn:E.
      apply consume_positionals_extras in E.
      destruct l1; intros H; apply IH in H as [e He].
      - exists e. by rewrite He, E.
      - exists ([s] ++ e). rewrite He. cbn. by rewrite <- app_assoc. }
    destruct p as [|t|].
    + apply HA. by left.
    + destruct (consume_optional t); [done|].
      intros H; apply IH in H as [e He].
      exists ([s] ++ e). rewrite He. cbn. by rewrite <- app_assoc.
    + apply HA. by right.
Qed.

(** If an option string lies ahead, the loop either leaves the process or
    ends with something among the extras. *)
Lemma consume_alternately_option st l st' l' :
  existsb is_option l = true ->
  consume_alternately st l = inr (st', l') -> extras st' <> [].
Proof.
  revert st. induction l as [|[s p] tl IH]; intros st Hopt; [done|].
  cbn [consume_alternately]. rewrite Hopt. cbn [negb].
  destruct p as [|t|].
  - cbn in Hopt.
    destruct (consume_positionals st [(s, A)]) as [st1 [|? ?]]; by apply IH.
  - destruct (consume_optional t); [done|].
    intros H. apply consume_alternately_extras in H as [e He].
    rewrite He. cbn. by destruct (extras st).
  - cbn in Hopt.
    destruct (consume_positionals st [(s, Dashes)]) as [st1 [|? ?]]; by apply IH.
Qed.

Lemma consume_alternately_no_option st l :
  existsb is_option l = false -> consume_alternately st l = inr (st, l).
Proof. destruct l as [|[s p] tl]; [done|]. intros H. cbn [consume_alternately]. by rewrite H. Qed.

Lemma parse_indexed_extras st l v ex :
  extras st <> [] -> parse_indexed st l = inr (v, ex) -> ex <> [].
Proof.
  unfold parse_indexed. intros Hst.
  destruct (consume_alternately st l) as [r|[st1 l1]] eqn:E1; [done|].
  destruct (consume_positionals st1 l1) as [st2 l2] eqn:E2.
  destruct (ns_dest_dir st2); [|done]. intros [= <- <-].
  apply consume_alternately_extras in E1 as [e He].
  apply consume_positionals_extras in E2. rewrite E2, He.
  destruct (extras st); [done|]. discriminate.
Qed.

Lemma parse_indexed_option st l v ex :
  existsb is_option l = true -> parse_indexed st l = inr (v, ex) -> ex <> [].
Proof.
  unfold parse_indexed. intros Hopt.
  destruct (consume_alternately st l) as [r|[st1 l1]] eqn:E1; [done|].
  destruct (consume_positionals st1 l1) as [st2 l2] eqn:E2.
  destruct (ns_dest_dir st2); [|done]. intros [= <- <-].
  apply consume_alternately_option in E1; [|done].
  apply consume_positionals_extras in E2. rewrite E2.
  destruct (extras st1); [done|]. discriminate.
Qed.

Lemma parse_optional_dashes : _parse_optional "--" <> Positional.
Proof. vm_compute. discriminate. Qed.

Lemma positional_not_dashes d : _parse_optional d = Positional -> String.eqb d "--" = false.
Proof.
  intros H. destruct (String.eqb_spec d "--") as [->|]; [|done].
  by destruct parse_optional_dashes.
Qed.

Lemma _get_values_single a : String.eqb a "--" = false -> _get_values [a] = Str a.
Proof. intros H. unfold _get_values. cbn [remove_first_dashes]. by rewrite H. Qed.

Lemma _get_values_before a :
  String.eqb a "--" = false -> _get_values [a; "--"] = Str a.
Proof. intros H. unfold _get_values. cbn [remove_first_dashes]. by rewrite H. Qed.

(** The three command lines that bind [dest_dir]. *)
Lemma parse_args_single d :
  _parse_optional d = Positional -> parse_args [d] = Namespace (Str d).
Proof.
  intros H. pose proof (positional_not_dashes d H) as Hd.
  unfold parse_args, _parse_known_args. cbn [index_args]. rewrite Hd, H.
  cbn -[String.eqb _get_values]. unfold _get_values.
  cbn [remove_first_dashes]. by rewrite Hd.
Qed.

Lemma parse_args_after_dashes d : parse_args ["--"; d] = Namespace (Str d).
Proof. reflexivity. Qed.

Lemma parse_args_before_dashes d :
  _parse_optional d = Positional -> parse_args [d; "--"] = Namespace (Str d).
Proof.
  intros H. pose proof (positional_not_dashes d H) as Hd.
  unfold parse_args, _parse_known_args. cbn [index_args].
  rewrite Hd, H, String.eqb_refl.
  cbn -[String.eqb _get_values]. unfold _get_values.
  cbn [remove_first_dashes]. by rewrite Hd, String.eqb_refl.
Qed.

Lemma parse_args_Namespace argv v :
  parse_args argv = Namespace v -> exists d, v = Str d /\ binds argv d.
Proof.
  unfold parse_args, _parse_known_args.
  destruct (index_args argv) as [m|l] eqn:Ei; [done|].
  destruct (parse_indexed initial_state l) as [r|[v' ex]] eqn:Ep.
  { intros ->. exfalso. revert Ep. unfold parse_indexed.
    pose proof (consume_alternately_exit initial_state l) as Hx.
    destruct (consume_alternately initial_state l) as [r|[st1 l1]].
    - intros [= ->]. unfold first_option_exit in Hx.
      destruct (omap option_exit l) as [|r0 ?] eqn:Eo; [done|].
      cbn in Hx. injection Hx as ->.
      assert (exists p, option_exit p = Some (Namespace v)) as [[s p] Hp].
      { clear -Eo. revert Eo. induction l as [|q l IH]; [done|]. cbn.
        destruct (option_exit q) eqn:Eq; [intros [= -> _]; eauto|]. done. }
      unfold option_exit in Hp. destruct p as [|t|]; try done.
      apply consume_optional_exits in Hp as [|[m [? ?]]]; done.
    - destruct (consume_positionals st1 l1) as [st2 l2].
      by destruct (ns_dest_dir st2). }
  destruct ex as [|x ex]; [|done]. intros [= ->].
  destruct (existsb is_option l) eqn:Eopt.
  { by apply parse_indexed_option in Ep. }
  revert Ep. unfold parse_indexed.
  rewrite consume_alternately_no_option by done.
  destruct argv as [|a rest]; cbn in Ei.
  { injection Ei as <-. done. }
  destruct (String.eqb_spec a "--") as [->|Ha].
  - (* the separator comes first *)
    injection Ei as <-. unfold consume_positionals. cbn [positionals initial_state].
    unfold match_nargs_none. cbn [count_dashes].
    rewrite tag_A_no_dashes. cbn [drop].
    destruct rest as [|b rest']; [done|].
    change (tag_A (b :: rest')) with ((b, A) :: tag_A rest').
    cbn -[tag_A]. rewrite tag_A_no_dashes. cbn -[tag_A].
    rewrite take_0, drop_0, tag_A_fst. cbn.
    intros [= <- ->]. exists b. split; [done|]. right. by left.
  - destruct (_parse_optional a) eqn:Epa; [| |done].
    2:{ destruct (index_args rest); cbn in Ei; [done|]. injection Ei as <-. done. }
    destruct (index_args rest) as [|l'] eqn:Er; cbn in Ei; [done|].
    injection Ei as <-. cbn in Eopt.
    unfold consume_positionals. cbn [positionals initial_state].
    unfold match_nargs_none. cbn [count_dashes drop].
    assert (String.eqb a "--" = false) as Hab by by apply String.eqb_neq.
    destruct rest as [|b rest']; cbn in Er.
    { injection Er as <-. cbn -[String.eqb]. rewrite _get_values_single by done.
      intros [= <-]. exists a. split; [done|]. by left. }
    destruct (String.eqb_spec b "--") as [->|Hb].
    + injection Er as <-. cbn [count_dashes].
      rewrite tag_A_no_dashes. cbn -[tag_A String.eqb _get_values].
      rewrite take_0, drop_0, tag_A_fst, _get_values_before by done.
      intros [= <- ->]. exists a. split; [done|]. right. by right.
    + destruct (_parse_optional b); try done;
        destruct (index_args rest') as [|l'']; cbn in Er; try done;
        injection Er as <-; cbn -[String.eqb _get_values]; done.
Qed.


Local Ltac split_if :=
  match goal with
  | |- context [if ?b then _ else _] => destruct b
  end.

Lemma _get_option_tuples_short c1 r :
  length (_get_option_tuples (String "-"%char (String c1 r))) <= 1.
Proof.
  cbn [_get_option_tuples].
  destruct (Ascii.eqb_spec c1 "-"%char) as [->|Hc].
  - cbn [split_eq]. change (Ascii.eqb "-" "=") with false. cbn iota.
    destruct (split_eq r) as [[p e]|]; cbn; split_if; cbn; lia.
  - assert (String.eqb "--help" (String "-" (String c1 "")) = false) as E1.
    { cbn -[Ascii.eqb]. by destruct (Ascii.eqb _ c1). }
    assert (String.prefix (String "-" (String c1 r)) "--help" = false) as E2.
    { cbn. by destruct (ascii_dec c1 "-"). }
    cbn -[String.prefix String.eqb]. rewrite E1, E2.
    repeat split_if; cbn; lia.
Qed.

Lemma _parse_optional_unambiguous s ts : _parse_optional s <> Ambiguous ts.
Proof.
  destruct s as [|c0 rest]; [done|]. cbn [_parse_optional].
  destruct (Ascii.eqb_spec c0 "-"%char) as [->|]; [|done]. cbn [negb].
  destruct (lookup_option _); [done|].
  destruct rest as [|c1 r]; [done|]. cbn [String.eqb].
  destruct (match split_eq _ with Some _ => _ | None => _ end); [done|].
  pose proof (_get_option_tuples_short c1 r) as Hlen.
  destruct (_get_option_tuples _) as [|t [|t' ts']]; [|done|cbn in Hlen; lia].
  by repeat split_if.
Qed.

Lemma index_args_total argv : index_args argv = inr (indexed argv).
Proof.
  unfold indexed.
  induction argv as [|a rest IH]; [done|]. cbn [index_args].
  destruct (String.eqb a "--"); [done|].
  pose proof (_parse_optional_unambiguous a) as Ha.
  destruct (_parse_optional a); [| |by destruct (Ha matches)];
    by destruct (index_args rest).
Qed.


Lemma first_option_exit_exits l r :
  first_option_exit l = Some r ->
  r = SystemExit 0 HelpText \/ exists m, r = SystemExit 2 m /\ m <> HelpText.
Proof.
  unfold first_option_exit. induction l as [|[s p] l IH]; [done|]. cbn.
  destruct (option_exit (s, p)) as [r'|] eqn:E; [|done].
  cbn. intros [= ->]. destruct p as [|t|]; try done.
  by apply consume_optional_exits in E.
Qed.

(** The parser ends in one of three ways, and [help_reached] tells the
    help exit from the other two. *)
Lemma parse_args_help argv :
  help_reached argv = true -> parse_args argv = SystemExit 0 HelpText.
Proof.
  unfold help_reached, parse_args, _parse_known_args, parse_indexed.
  rewrite index_args_total.
  pose proof (consume_alternately_exit initial_state (indexed argv)) as Hx.
  destruct (first_option_exit (indexed argv)) as [r|] eqn:E; [|done].
  apply first_option_exit_exits in E as [->|(m & -> & _)]; [|done].
  intros _.
  destruct (consume_alternately _ _) as [r|[? ?]]; [|done].
  by injection Hx as ->.
Qed.

Lemma parse_args_no_help argv :
  help_reached argv = false ->
  (exists m, parse_args argv = SystemExit 2 m /\ m <> HelpText)
  \/ exists d, parse_args argv = Namespace (Str d) /\ binds argv d.
Proof.
  intros Hh. destruct (parse_args argv) as [v|c m] eqn:E.
  { right. apply parse_args_Namespace in E as (d & -> & Hb). eauto. }
  left. revert E Hh.
  unfold help_reached, parse_args, _parse_known_args, parse_indexed.
  rewrite index_args_total.
  pose proof (consume_alternately_exit initial_state (indexed argv)) as Hx.
  destruct (consume_alternately _ _) as [r|[st1 l1]].
  - rewrite Hx. intros ->.
    apply first_option_exit_exits in Hx as [[= -> ->]|(m' & [= -> ->] & ?)];
      [done|eauto].
  - destruct (consume_positionals st1 l1) as [st2 l2].
    destruct (ns_dest_dir st2).
    + destruct (extras st2 ++ l2.*1); [done|].
      intros [= <- <-] _. eexists. split; [done|discriminate].
    + intros [= <- <-] _. eexists. split; [done|discriminate].
Qed.

(** A command line that binds [dest_dir] has one positional and nothing
    that looks like an option. *)
Lemma binds_indexed argv d :
  binds argv d ->
  positional_count argv = 1 /\ existsb is_option (indexed argv) = false
  /\ d ∈ argv.
Proof.
  unfold positional_count, indexed.
  intros [[-> H]|[->|[-> H]]].
  - pose proof (positional_not_dashes d H) as Hd.
    cbn [index_args]. rewrite Hd, H. cbn. split_and!; [done..|set_solver].
  - cbn. split_and!; [done..|set_solver].
  - pose proof (positional_not_dashes d H) as Hd.
    cbn [index_args]. rewrite Hd, H, String.eqb_refl. cbn.
    split_and!; [done..|set_solver].
Qed.

Lemma binds_single P d : binds [P] d -> d = P.
Proof. by intros [[[= ->] _]|[?|[? _]]]. Qed.

(** ** The script *)
Section ScriptProperties.
Context {World : Type}.
Variable download_pysteps_data : value -> bool -> World -> World * outcome.
Variable create_default_pystepsrc : value -> World -> World * outcome.

Abbreviation main := (__main__ download_pysteps_data create_default_pystepsrc).

Lemma main_run_of argv w :
  run_of download_pysteps_data create_default_pystepsrc argv w (main argv w).
Proof.
  unfold __main__. destruct (parse_args argv) as [v|c m] eqn:E.
  - destruct (parse_args_Namespace _ _ E) as (d & -> & Hb).
    destruct (download_pysteps_data (Str d) true w) as [w1 [|exc]] eqn:E1.
    + destruct (create_default_pystepsrc (Str d) w1) as [w2 [|exc]] eqn:E2.
      * by eapply run_done.
      * by eapply run_config_raised.
    + by eapply run_download_raised.
  - by apply run_parser_exit.
Qed.

(** C1: with the single argument [P], a run in which the download and the
    configuration write both succeed has made exactly the two calls
    [download_pysteps_data(P, force=True)] and
    [create_default_pystepsrc(P)], in this order, leaves the world that
    the configuration writer, given [P], made of the world the download
    into [P] left, and exits with status 0. *)
Theorem happy_path (P : string) (w : World) :
  download_succeeded (main [P] w) = true ->
  config_write_succeeded (main [P] w) = true ->
  let after_download := download_pysteps_data (Str P) true w in
  let after_config := create_default_pystepsrc (Str P) after_download.1 in
  trace (main [P] w) = [(Download (Str P) true, Returned);
                        (CreatePystepsrc (Str P), Returned)]
  /\ after_download.2 = Returned /\ after_config.2 = Returned
  /\ final (main [P] w) = after_config.1
  /\ exit_status (main [P] w) = 0%Z.
Proof.
  destruct (main_run_of [P] w) as [c m E|d w1 exc E Hb E1|d w1 w2 exc E Hb E1 E2
                                   |d w1 w2 E Hb E1 E2]; try done.
  apply binds_single in Hb as ->. intros _ _. cbn zeta.
  rewrite E1. cbn [fst snd]. by rewrite E2.
Qed.

(** C2: in any run in which the download raises, the configuration writer
    is not called at all: the download is the only call made, the world
    is left as the failed download left it, and the status is not 0.  And in
    any run in which the configuration writer is called, it is called
    second, after the download, with the same path, has returned. *)
Theorem no_config_after_failed_download (argv : list string) (w : World) :
  (download_failed (main argv w) = true ->
     config_write_attempted (main argv w) = false
     /\ (exists d exc,
           binds argv d
           /\ download_pysteps_data (Str d) true w
              = (final (main argv w), Raised exc)
           /\ trace (main argv w) = [(Download (Str d) true, Raised exc)])
     /\ exit_status (main argv w) <> 0%Z)
  /\ (config_write_attempted (main argv w) = true ->
        exists d o,
          trace (main argv w) = [(Download (Str d) true, Returned);
                                 (CreatePystepsrc (Str d), o)]
          /\ (download_pysteps_data (Str d) true w).2 = Returned).
Proof.
  destruct (main_run_of argv w) as [c m E|d w1 exc E Hb E1|d w1 w2 exc E Hb E1 E2
                                   |d w1 w2 E Hb E1 E2]; cbn; split; try done.
  - intros _. split_and!; [done| |done]. by exists d, exc.
  - intros _. exists d, (Raised exc). by rewrite E1.
  - intros _. exists d, Returned. by rewrite E1.
Qed.

(** C4: with no argument the process exits with status 2 on the parser's
    "arguments are required" error; no library call is made and the world
    is unchanged. *)
Theorem zero_arguments (w : World) :
  parse_args [] = SystemExit 2 (ErrRequired ["dest_dir"])
  /\ exit_status (__main__ download_pysteps_data create_default_pystepsrc [] w)
     <> 0%Z
  /\ trace (main [] w) = []
  /\ final (main [] w) = w
  /\ printed (main [] w) = ParserMessage (ErrRequired ["dest_dir"]).
Proof. by cbn. Qed.

Lemma accepted_no_help argv d :
  parse_args argv = Namespace (Str d) -> help_reached argv = false.
Proof.
  intros E. destruct (help_reached argv) eqn:Eh; [|done].
  apply parse_args_help in Eh. congruence.
Qed.

Lemma parser_exit_cases argv c m :
  parse_args argv = SystemExit c m ->
  (help_reached argv = true /\ c = 0%Z /\ m = HelpText)
  \/ (help_reached argv = false /\ c = 2%Z /\ m <> HelpText).
Proof.
  intros E. destruct (help_reached argv) eqn:Eh.
  - left. apply parse_args_help in Eh. rewrite Eh in E. by injection E as <- <-.
  - right. apply parse_args_no_help in Eh as [(m' & Em & ?)|(d & Ed & _)];
      [|congruence].
    rewrite Em in E. by injection E as <- <-.
Qed.

(** C5, as the code has it: a call that raises is the last call of the run,
    which then ends with status 1 and the traceback of that exception;
    neither call is made more than once; and the status is 0 exactly when
    both calls returned or the parser reached a request for help, in which
    case help is printed and no call is made. *)
Theorem failures_propagate (argv : list string) (w : World) :
  (download_failed (main argv w) || config_write_failed (main argv w) = true ->
     exit_status (main argv w) = 1%Z
     /\ exists before c exc,
          trace (main argv w) = before ++ [(c, Raised exc)]
          /\ printed (main argv w) = Traceback exc)
  /\ length (List.filter is_download (trace (main argv w))) <= 1
  /\ length (List.filter is_config_write (trace (main argv w))) <= 1
  /\ (exit_status (main argv w) = 0%Z <->
        download_succeeded (main argv w) && config_write_succeeded (main argv w)
          = true
        \/ help_reached argv = true)
  /\ (help_reached argv = true ->
        trace (main argv w) = [] /\ final (main argv w) = w
        /\ printed (main argv w) = ParserMessage HelpText).
Proof.
  destruct (main_run_of argv w) as [c m E|d w1 exc E Hb E1|d w1 w2 exc E Hb E1 E2
                                   |d w1 w2 E Hb E1 E2]; cbn.
  - apply parser_exit_cases in E as [(Eh & -> & ->)|(Eh & -> & ?)];
      rewrite Eh; split_and!; try done; try lia; naive_solver.
  - apply accepted_no_help in E as ->. split_and!; try lia; try naive_solver.
    intros _. split; [done|]. by exists [], (Download (Str d) true), exc.
  - apply accepted_no_help in E as ->. split_and!; try lia; try naive_solver.
    intros _. split; [done|].
    by exists [(Download (Str d) true, Returned)], (CreatePystepsrc (Str d)), exc.
  - apply accepted_no_help in E as ->. split_and!; try lia; naive_solver.
Qed.

Lemma no_option_no_malformed l :
  existsb is_option l = false ->
  existsb is_malformed l = false /\ existsb is_unknown_option l = false.
Proof.
  induction l as [|[s [|t|]] l IH]; cbn; [done|..]; try done.
Qed.

(** A command line that the parser does not accept: no call is made, the
    world is unchanged, and the process ends on a usage error unless the
    parser reached a request for help, which ends it with status 0. *)
Lemma rejected_run argv w :
  (forall d, ~ binds argv d) ->
  trace (main argv w) = [] /\ final (main argv w) = w
  /\ (help_reached argv = false -> usage_error (main argv w))
  /\ (help_reached argv = true ->
        exit_status (main argv w) = 0%Z
        /\ printed (main argv w) = ParserMessage HelpText).
Proof.
  intros Hn.
  destruct (main_run_of argv w) as [c m E|d w1 exc E Hb E1|d w1 w2 exc E Hb E1 E2
                                   |d w1 w2 E Hb E1 E2];
    try by destruct (Hn d).
  cbn. apply parser_exit_cases in E as [(Eh & -> & ->)|(Eh & -> & ?)];
    rewrite Eh; split_and!; try done.
  intros _. split; [done|]. by exists m.
Qed.


(** C7, as the code has it: the parser returns a namespace exactly for the
    command lines that give one positional string (alone, or next to the
    separator) and nothing else; there is no default, so the empty command
    line is an error; and with more than one positional or an unknown
    option no call is made, and the process fails with a usage error, status
    2, unless the parser reached a request for help first, and then it
    prints the help and exits with status 0. *)
Theorem exactly_one_positional (argv : list string) (w : World) :
  (forall d, parse_args argv = Namespace (Str d) <-> binds argv d)
  /\ (forall l, parse_args argv <> Namespace (StrList l))
  /\ (forall d, binds argv d ->
        positional_count argv = 1 /\ existsb is_option (indexed argv) = false)
  /\ parse_args [] = SystemExit 2 (ErrRequired ["dest_dir"])
  /\ (2 <= positional_count argv \/ has_unknown_option argv = true ->
        trace (main argv w) = [] /\ final (main argv w) = w
        /\ (help_reached argv = false -> usage_error (main argv w))
        /\ (help_reached argv = true ->
              exit_status (main argv w) = 0%Z
              /\ printed (main argv w) = ParserMessage HelpText)).
Proof.
  split_and!.
  - intros d. split.
    + intros E. apply parse_args_Namespace in E as (d' & [= <-] & Hb). done.
    + intros [[-> H]|[->|[-> H]]].
      * by apply parse_args_single.
      * apply parse_args_after_dashes.
      * by apply parse_args_before_dashes.
  - intros l E. by apply parse_args_Namespace in E as (d' & [=] & _).
  - intros d Hb. by apply binds_indexed in Hb as (? & ? & _).
  - done.
  - intros H. apply rejected_run. intros d Hb.
    apply binds_indexed in Hb as (Hc & Ho & _).
    apply no_option_no_malformed in Ho as [_ Hu].
    unfold has_unknown_option in H. destruct H as [H|H]; [lia|congruence].
Qed.



End ScriptProperties.

(** ** The script with a provider and a writer that keep to the design *)
Section ContractProperties.
Context {World : Type}.
Variable download_pysteps_data : value -> bool -> World -> World * outcome.
Variable create_default_pystepsrc : value -> World -> World * outcome.
Variable observed_files : World -> gmap string string.
Variable observed_requests : World -> list string.
Variable data : string -> gmap string string.
Variable rc : string.

Abbreviation main := (__main__ download_pysteps_data create_default_pystepsrc).

Lemma calls_forced_with P w :
  Forall (fun e => forced e.1 = true /\ call_path e.1 = Str P)
         (trace (main [P] w)).
Proof.
  destruct (main_run_of download_pysteps_data create_default_pystepsrc [P] w)
    as [k msg E|d w1 exc E Hb E1|d w1 w2 exc E Hb E1 E2|d w1 w2 E Hb E1 E2];
    try (apply binds_single in Hb as ->); by repeat constructor.
Qed.

(** C3: every download the script asks for is forced.  So, if a forced
    fetch that succeeds leaves exactly the reference dataset in the tree
    under its destination, and the configuration writer writes only its own
    file, then after a first run with [P], an unrelated marker file put
    into the tree under [P], and a second run with [P] whose download
    succeeds, the marker file is gone. *)
Theorem forced_download_overwrites (P : string) (w0 w1 : World) (m c : string) :
  fetch_overwrites observed_files download_pysteps_data data ->
  config_writes_at observed_files create_default_pystepsrc rc ->
  under P m = true -> data P !! m = None -> m <> rc ->
  observed_files w1 = <[m := c]> (observed_files (final (main [P] w0))) ->
  download_succeeded (main [P] w1) = true ->
  Forall (fun e => forced e.1 = true /\ call_path e.1 = Str P)
         (trace (main [P] w0) ++ trace (main [P] w1))
  /\ observed_files w1 !! m = Some c
  /\ observed_files (final (main [P] w1)) !! m = None.
Proof.
  intros Hforce Hcfg Hunder Hdata Hrc Hw1 Hok. split_and!.
  - apply Forall_app. split; apply calls_forced_with.
  - rewrite Hw1. apply lookup_insert_eq.
  - revert Hok.
    destruct (main_run_of download_pysteps_data create_default_pystepsrc [P] w1)
      as [k msg E|d w2 exc E Hb E1|d w2 w3 exc E Hb E1 E2|d w2 w3 E Hb E1 E2];
      try done; intros _; apply binds_single in Hb as ->; cbn [final].
    all: replace w3 with (create_default_pystepsrc (Str P) w2).1 by by rewrite E2.
    all: rewrite Hcfg by done.
    all: by rewrite (Hforce P w1 w2 E1 m Hunder).
Qed.

(** With such a provider and writer, a run with [P] in which both calls
    succeed leaves the reference dataset in the tree under [P] and a
    configuration record that points at [P]. *)
Lemma successful_run_state (P : string) (w : World) :
  fetch_overwrites observed_files download_pysteps_data data ->
  config_writes_at observed_files create_default_pystepsrc rc ->
  config_points_at observed_files create_default_pystepsrc rc ->
  download_succeeded (main [P] w) = true ->
  config_write_succeeded (main [P] w) = true ->
  observed_files (final (main [P] w)) !! rc = Some P
  /\ forall p, under P p = true -> p <> rc ->
       observed_files (final (main [P] w)) !! p = data P !! p.
Proof.
  intros Hforce Hcfg Hrc.
  destruct (main_run_of download_pysteps_data create_default_pystepsrc [P] w)
    as [k msg E|d w1 exc E Hb E1|d w1 w2 exc E Hb E1 E2|d w1 w2 E Hb E1 E2];
    try done; intros _ _; apply binds_single in Hb as ->; cbn [final].
  split; [by eapply Hrc|]. intros p Hu Hp.
  replace w2 with (create_default_pystepsrc (Str P) w1).1 by by rewrite E2.
  rewrite Hcfg by done. by eapply Hforce.
Qed.

(** C8: the script changes the world only through its two calls.  So, if
    the provider writes only in the tree under its destination, and the
    writer writes only its configuration file and makes no request, then a
    file that differs after the run lies in the tree under the destination
    given on the command line, after a download call, or is the
    configuration file, after a call of the writer; and the requests made
    are those of the download call, if there was one. *)
Theorem writes_only_at_two_locations (argv : list string) (w : World) :
  fetch_writes_under_destination observed_files download_pysteps_data ->
  config_writes_at observed_files create_default_pystepsrc rc ->
  config_is_offline observed_requests create_default_pystepsrc ->
  (trace (main argv w) = [] -> final (main argv w) = w)
  /\ (forall p,
        observed_files (final (main argv w)) !! p <> observed_files w !! p ->
        (exists d, binds argv d /\ under d p = true
                   /\ existsb is_download (trace (main argv w)) = true)
        \/ (p = rc /\ config_write_attempted (main argv w) = true))
  /\ (observed_requests (final (main argv w)) = observed_requests w
      \/ exists d, binds argv d
           /\ existsb is_download (trace (main argv w)) = true
           /\ observed_requests (final (main argv w))
              = observed_requests (download_pysteps_data (Str d) true w).1).
Proof.
  intros Hfetch Hcfg Hoff.
  destruct (main_run_of download_pysteps_data create_default_pystepsrc argv w)
    as [k msg E|d w1 exc E Hb E1|d w1 w2 exc E Hb E1 E2|d w1 w2 E Hb E1 E2];
    cbn [final trace]; split_and!; try done.
  - by left.
  - intros p Hp. left. exists d. split_and!; try done.
    destruct (under d p) eqn:Eu; [done|]. destruct Hp.
    specialize (Hfetch d true w p Eu). by rewrite E1 in Hfetch.
  - right. exists d. by rewrite E1.
  - intros p Hp. destruct (decide (p = rc)) as [->|Hne]; [by right|].
    left. exists d. split_and!; try done.
    destruct (under d p) eqn:Eu; [done|]. destruct Hp.
    specialize (Hfetch d true w p Eu). specialize (Hcfg d w1 p Hne).
    rewrite E1 in Hfetch. rewrite E2 in Hcfg. cbn in *. congruence.
  - right. exists d. split_and!; try done. specialize (Hoff d w1).
    rewrite E1, E2 in *. done.
  - intros p Hp. destruct (decide (p = rc)) as [->|Hne]; [by right|].
    left. exists d. split_and!; try done.
    destruct (under d p) eqn:Eu; [done|]. destruct Hp.
    specialize (Hfetch d true w p Eu). specialize (Hcfg d w1 p Hne).
    rewrite E1 in Hfetch. rewrite E2 in Hcfg. cbn in *. congruence.
  - right. exists d. split_and!; try done. specialize (Hoff d w1).
    rewrite E1, E2 in *. done.
Qed.

End ContractProperties.

(** ** The collaborators of the design keep to it *)

Lemma prefix_append a b : String.prefix a (a +:+ b) = true.
Proof.
  induction a as [|c a IH]; [by destruct b|].
  change (match ascii_dec c c with
          | left _ => String.prefix a (a +:+ b)
          | right _ => false
          end = true).
  destruct (ascii_dec c c) as [_|n]; [exact IH|by destruct n].
Qed.

Lemma dataset_under d p : is_Some (dataset d !! p) -> under d p = true.
Proof.
  intros [c H]. unfold dataset in H. apply elem_of_list_to_map_2 in H.
  cbn in H. unfold under.
  apply elem_of_cons in H as [[= -> ->]|H]; [apply prefix_append|].
  apply elem_of_cons in H as [[= -> ->]|H]; [apply prefix_append|].
  by apply elem_of_nil in H.
Qed.

Lemma fetch_keeps_to_destination :
  fetch_writes_under_destination files fetch.
Proof.
  intros d f w p Hu. unfold fetch.
  destruct (negb f && has_data d w); [done|].
  destruct (online w); [|done]. cbn [files fst].
  rewrite lookup_union_r.
  - apply option_eq. intros c. rewrite map_lookup_filter_Some.
    split; [by intros [? _]|done].
  - apply eq_None_not_Some. intros H. apply dataset_under in H. congruence.
Qed.

Lemma fetch_forced_overwrites : fetch_overwrites files fetch dataset.
Proof.
  intros d w w' H p Hu. unfold fetch in H. cbn [negb andb] in H.
  destruct (online w); [|done]. injection H as <-. cbn [files].
  destruct (dataset d !! p) as [c|] eqn:E.
  - by apply lookup_union_Some_l.
  - rewrite lookup_union_r by done.
    apply map_lookup_filter_None. right. intros c _ Hf.
    change (under d p = false) in Hf. congruence.
Qed.

Lemma writer_keeps_to_pystepsrc :
  config_writes_at files write_default_config pystepsrc.
Proof.
  intros d w p Hp. unfold write_default_config.
  destruct (config_writable w); [|done]. cbn. by rewrite lookup_insert_ne.
Qed.

Lemma writer_points_at_argument :
  config_points_at files write_default_config pystepsrc.
Proof.
  intros d w w' H. unfold write_default_config in H.
  destruct (config_writable w); [|done]. injection H as <-.
  apply lookup_insert_eq.
Qed.

Lemma writer_is_offline : config_is_offline requests write_default_config.
Proof.
  intros d w. unfold write_default_config. by destruct (config_writable w).
Qed.

(** ** Runs with these collaborators *)

Lemma happy_path_witness :
  trace (bootstrap ["/tmp/test_env"] fresh)
    = [(Download (Str "/tmp/test_env") true, Returned);
       (CreatePystepsrc (Str "/tmp/test_env"), Returned)]
  /\ exit_status (bootstrap ["/tmp/test_env"] fresh) = 0%Z.
Proof.
  pose proof (happy_path fetch write_default_config "/tmp/test_env" fresh
                eq_refl eq_refl) as H.
  cbv zeta in H. split; apply H.
Defined.

Lemma no_config_after_failed_download_witness :
  config_write_attempted (bootstrap ["/tmp/test_env"] offline) = false
  /\ exit_status (bootstrap ["/tmp/test_env"] offline) <> 0%Z.
Proof.
  pose proof (proj1 (no_config_after_failed_download fetch write_default_config
                       ["/tmp/test_env"] offline) eq_refl) as H.
  split; apply H.
Defined.

Lemma forced_download_overwrites_witness :
  files marked !! "/tmp/test_env/marker" = Some "x"
  /\ files (final (bootstrap ["/tmp/test_env"] marked))
       !! "/tmp/test_env/marker" = None.
Proof.
  assert ("/tmp/test_env/marker" <> pystepsrc) as Hne by discriminate.
  pose proof (forced_download_overwrites fetch write_default_config files
                dataset pystepsrc "/tmp/test_env" fresh marked
                "/tmp/test_env/marker" "x"
                fetch_forced_overwrites writer_keeps_to_pystepsrc
                eq_refl eq_refl Hne eq_refl eq_refl) as H.
  split; apply H.
Defined.

Lemma writes_only_at_two_locations_witness :
  under "/tmp/test_env" "/tmp/test_env/README" = true
  \/ "/tmp/test_env/README" = pystepsrc.
Proof.
  assert (files (final (bootstrap ["/tmp/test_env"] fresh))
            !! "/tmp/test_env/README" <> files fresh !! "/tmp/test_env/README")
    as Hp by (vm_compute; discriminate).
  destruct (proj1 (proj2 (writes_only_at_two_locations fetch write_default_config
              files requests pystepsrc ["/tmp/test_env"] fresh
              fetch_keeps_to_destination writer_keeps_to_pystepsrc
              writer_is_offline)) _ Hp) as [(d & Hb & Hu & _)|[Hrc _]].
  - left. apply binds_single in Hb as ->. exact Hu.
  - by right.
Defined.

Lemma failures_propagate_witness :
  exit_status (bootstrap ["/tmp/test_env"] offline) = 1%Z.
Proof.
  apply (proj1 (failures_propagate fetch write_default_config
                  ["/tmp/test_env"] offline) eq_refl).
Defined.


Lemma exactly_one_positional_witness :
  trace (bootstrap ["/tmp/a"; "/tmp/b"] fresh) = []
  /\ usage_error (bootstrap ["/tmp/a"; "/tmp/b"] fresh).
Proof.
  pose proof (exactly_one_positional fetch write_default_config
                ["/tmp/a"; "/tmp/b"] fresh) as (_ & _ & _ & _ & H).
  destruct (H (or_introl (le_n 2))) as (Ht & _ & Hu & _).
  split; [exact Ht|exact (Hu eq_refl)].
Defined.



(** ** Where the specification and the script part *)

(** C5 as stated fails: [-h] makes the run exit with status 0 although
    neither operation was carried out. *)
Lemma help_exits_zero_without_operations :
  ~ (forall argv w,
       exit_status (bootstrap argv w) = 0%Z ->
       download_succeeded (bootstrap argv w)
       && config_write_succeeded (bootstrap argv w) = true).
Proof. intros H. by specialize (H ["-h"] fresh eq_refl). Qed.


(** C7 as stated fails: two positionals followed by [-h] exit with
    status 0. *)
Lemma two_positionals_exit_zero :
  ~ (forall argv w,
       2 <= positional_count argv \/ has_unknown_option argv = true ->
       exit_status (bootstrap argv w) <> 0%Z).
Proof.
  intros H. by destruct (H ["/tmp/a"; "/tmp/b"; "-h"] fresh (or_introl (le_n 2))).
Qed.

(** ** More on the parser *)

Import CommandLine.

Lemma indexed_cons a rest :
  String.eqb a "--" = false -> indexed (a :: rest) = (a, kind a) :: indexed rest.
Proof.
  intros Ha. unfold indexed at 1. cbn [index_args]. rewrite Ha.
  pose proof (_parse_optional_unambiguous a) as Hu. unfold kind.
  rewrite index_args_total.
  destruct (_parse_optional a); [done|done|by destruct (Hu matches)].
Qed.


Lemma looks_unknown_not_dashes s : looks_unknown s = true -> String.eqb s "--" = false.
Proof.
  intros H. destruct (String.eqb_spec s "--") as [->|]; [|done].
  by vm_compute in H.
Qed.

Lemma reads_as_positional_spec s :
  reads_as_positional s = true <-> _parse_optional s = Positional.
Proof. unfold reads_as_positional. by destruct (_parse_optional s). Qed.

Lemma passes_by_spec s :
  passes_by s = true ->
  String.eqb s "--" = false /\ option_exit (s, kind s) = None.
Proof.
  unfold passes_by. intros [H|H]%orb_true_iff.
  - apply reads_as_positional_spec in H.
    split; [by apply positional_not_dashes|]. unfold kind. by rewrite H.
  - split; [by apply looks_unknown_not_dashes|].
    unfold looks_unknown in H. unfold kind, option_exit, consume_optional.
    destruct (_parse_optional s) as [|t|]; try done. cbn.
    by destruct (ot_action t).
Qed.

Lemma is_help_request_spec h :
  is_help_request h = true ->
  String.eqb h "--" = false
  /\ option_exit (h, kind h) = Some (SystemExit 0 HelpText).
Proof.
  unfold is_help_request, help_requests. cbn [existsb].
  rewrite !orb_true_iff, !String.eqb_eq.
  intros [->|[->|[->|[->|[->|?]]]]]; try done; by vm_compute.
Qed.

Lemma first_option_exit_cons p l :
  first_option_exit (p :: l)
  = match option_exit p with Some r => Some r | None => first_option_exit l end.
Proof. unfold first_option_exit. cbn. by destruct (option_exit p). Qed.

Lemma first_option_exit_passes pre l :
  forallb passes_by pre = true ->
  first_option_exit (indexed (pre ++ l)) = first_option_exit (indexed l).
Proof.
  induction pre as [|a pre IH]; [done|]. cbn [forallb app].
  intros [Ha Hpre]%andb_true_iff. apply passes_by_spec in Ha as [Hd Hx].
  by rewrite indexed_cons, first_option_exit_cons, Hx, IH.
Qed.

Lemma indexed_positionals l :
  forallb reads_as_positional l = true -> indexed l = tag_A l.
Proof.
  induction l as [|a l IH]; [done|]. cbn [forallb].
  intros [Ha Hl]%andb_true_iff. apply reads_as_positional_spec in Ha.
  rewrite indexed_cons by by apply positional_not_dashes.
  unfold kind. by rewrite Ha, IH.
Qed.

Lemma consume_alternately_unknown st l :
  forallb looks_unknown l = true ->
  consume_alternately st (indexed l) = inr (add_extras st l, []).
Proof.
  revert st. induction l as [|a l IH]; intros st.
  - intros _. cbn. unfold add_extras. rewrite app_nil_r. by destruct st.
  - cbn [forallb]. intros [Ha Hl]%andb_true_iff.
    rewrite indexed_cons by by apply looks_unknown_not_dashes.
    unfold looks_unknown in Ha. unfold kind.
    destruct (_parse_optional a) as [|t|]; try done.
    destruct (ot_action t) eqn:Et; [done|].
    cbn [consume_alternately existsb is_option snd orb negb].
    unfold consume_optional. rewrite Et, IH by done.
    unfold add_extras. cbn. by rewrite <- app_assoc.
Qed.

(** X4: when every argument string is read as a positional and there is
    more than one, the parser keeps the first and fails with
    "unrecognized arguments", naming all the others in order. *)
Theorem surplus_positionals_named (d x : string) (more : list string) :
  forallb reads_as_positional (d :: x :: more) = true ->
  parse_args (d :: x :: more) = SystemExit 2 (ErrUnrecognized (x :: more)).
Proof.
  intros H. unfold parse_args, _parse_known_args, parse_indexed.
  rewrite index_args_total, indexed_positionals by done.
  rewrite consume_alternately_no_option by apply tag_A_no_option.
  change (tag_A (d :: x :: more)) with ((d, A) :: (x, A) :: tag_A more).
  cbn -[tag_A _get_values]. by rewrite tag_A_fst.
Qed.

(** X5: when every argument string looks like an option the parser does
    not have, the error reported is the missing [dest_dir], not the
    unknown options. *)
Theorem unknown_options_report_missing_argument (argv : list string) :
  forallb looks_unknown argv = true ->
  parse_args argv = SystemExit 2 (ErrRequired ["dest_dir"]).
Proof.
  intros H. unfold parse_args, _parse_known_args, parse_indexed.
  by rewrite index_args_total, consume_alternately_unknown.
Qed.


Section MoreScriptProperties.
Context {World : Type}.
Variable download_pysteps_data : value -> bool -> World -> World * outcome.
Variable create_default_pystepsrc : value -> World -> World * outcome.

Abbreviation main := (__main__ download_pysteps_data create_default_pystepsrc).

(** X1: a request for help that comes after any number of strings the
    parser goes past (positionals and unknown options), and before
    anything else, ends the run with the help text and status 0: no call
    is made and the world is unchanged, whatever follows. *)
Theorem help_anywhere (before : list string) (h : string) (after : list string)
    (w : World) :
  forallb passes_by before = true ->
  is_help_request h = true ->
  main (before ++ h :: after) w = Run 0 [] w (ParserMessage HelpText).
Proof.
  intros Hb Hh. apply is_help_request_spec in Hh as [Hd Hx].
  assert (help_reached (before ++ h :: after) = true) as Hr.
  { unfold help_reached.
    by rewrite first_option_exit_passes, indexed_cons, first_option_exit_cons, Hx. }
  apply parse_args_help in Hr. unfold __main__. by rewrite Hr.
Qed.

(** X2: the exit status tells what happened.  It is 0, 1 or 2; it is 2
    exactly on a usage error of the parser, and then no call was made and
    the world is unchanged; it is 1 exactly when a library call raised. *)
Theorem exit_status_meaning (argv : list string) (w : World) :
  (exit_status (main argv w) = 0%Z \/ exit_status (main argv w) = 1%Z
   \/ exit_status (main argv w) = 2%Z)
  /\ (exit_status (main argv w) = 2%Z <-> usage_error (main argv w))
  /\ (exit_status (main argv w) = 2%Z ->
        trace (main argv w) = [] /\ final (main argv w) = w)
  /\ (exit_status (main argv w) = 1%Z <->
        download_failed (main argv w) || config_write_failed (main argv w)
          = true).
Proof.
  destruct (main_run_of download_pysteps_data create_default_pystepsrc argv w)
    as [c m E|d w1 exc E Hb E1|d w1 w2 exc E Hb E1 E2|d w1 w2 E Hb E1 E2];
    unfold usage_error; cbn.
  - apply parser_exit_cases in E as [(Eh & -> & ->)|(Eh & -> & ?)];
      split_and!; try done; try tauto; try (split; [done|by intros [? _]]).
    split; [|done]. intros _. split; [done|]. by exists m.
  - split_and!; try done; try tauto; split; [done|by intros [? _]].
  - split_and!; try done; try tauto; split; [done|by intros [? _]].
  - split_and!; try done; try tauto; split; [done|by intros [? _]].
Qed.

(** X3: with a single argument the download is reached exactly when the
    parser reads the string as a positional; the empty string and every
    string that does not begin with a dash are read so. *)
Theorem single_argument_reaches_download (s : string) (w : World) :
  (existsb is_download (trace (main [s] w)) = true
   <-> _parse_optional s = Positional)
  /\ (s = "" \/ (exists c r, s = String c r /\ c <> "-"%char) ->
        _parse_optional s = Positional).
Proof.
  split.
  - destruct (main_run_of download_pysteps_data create_default_pystepsrc [s] w)
      as [c m E|d w1 exc E Hb E1|d w1 w2 exc E Hb E1 E2|d w1 w2 E Hb E1 E2];
      cbn.
    + split; [done|]. intros H. apply parse_args_single in H. congruence.
    + split; [|done]. intros _. by destruct Hb as [[[= ->] ?]|[|[]]].
    + split; [|done]. intros _. by destruct Hb as [[[= ->] ?]|[|[]]].
    + split; [|done]. intros _. by destruct Hb as [[[= ->] ?]|[|[]]].
  - intros [->|(c & r & -> & Hc)]; [done|]. cbn [_parse_optional].
    by destruct (Ascii.eqb_spec c "-"%char).
Qed.

(** X6: when the configuration write raises, the download before it had
    returned and is neither undone nor repeated: the run made exactly the
    two calls, leaves the world the writer left of the world the download
    made, and ends with status 1. *)
Theorem download_kept_when_config_fails (argv : list string) (w : World) :
  config_write_failed (main argv w) = true ->
  exists d w1 exc,
    binds argv d
    /\ download_pysteps_data (Str d) true w = (w1, Returned)
    /\ create_default_pystepsrc (Str d) w1 = (final (main argv w), Raised exc)
    /\ trace (main argv w) = [(Download (Str d) true, Returned);
                              (CreatePystepsrc (Str d), Raised exc)]
    /\ exit_status (main argv w) = 1%Z.
Proof.
  destruct (main_run_of download_pysteps_data create_default_pystepsrc argv w)
    as [c m E|d w1 exc E Hb E1|d w1 w2 exc E Hb E1 E2|d w1 w2 E Hb E1 E2];
    try done.
  intros _. by exists d, w1, exc.
Qed.

End MoreScriptProperties.

(** ** docs/conf.py *)

Import Conf Re.

Lemma append_cons c s t : String c s +:+ t = String c (s +:+ t).
Proof. reflexivity. Qed.

Lemma append_nil_r s : s +:+ "" = s.
Proof. induction s as [|c s IH]; [done|]. by rewrite append_cons, IH. Qed.

Lemma append_assoc s1 s2 s3 : (s1 +:+ s2) +:+ s3 = s1 +:+ s2 +:+ s3.
Proof. induction s1 as [|c s1 IH]; [done|]. by rewrite !append_cons, IH. Qed.

Lemma append_eq_nil s1 s2 : s1 +:+ s2 = "" -> s1 = "" /\ s2 = "".
Proof. by destruct s1. Qed.

Lemma append_eq_cons s1 s2 c s :
  s1 +:+ s2 = String c s ->
  (s1 = "" /\ s2 = String c s) \/ exists s1', s1 = String c s1' /\ s = s1' +:+ s2.
Proof.
  destruct s1 as [|d s1]; [by left|]. rewrite append_cons.
  intros [= -> <-]. right. by exists s1.
Qed.

Lemma matches_cat_inv r1 r2 s :
  matches (Cat r1 r2) s ->
  exists s1 s2, s = s1 +:+ s2 /\ matches r1 s1 /\ matches r2 s2.
Proof. inversion 1; subst; eauto. Qed.

Lemma matches_alt_inv r1 r2 s :
  matches (Alt r1 r2) s -> matches r1 s \/ matches r2 s.
Proof. inversion 1; subst; eauto. Qed.

Lemma matches_lit_inv c s : matches (Lit c) s -> s = String c "".
Proof. by inversion 1. Qed.

Lemma matches_any_inv s :
  matches AnyChar s -> exists c, s = String c "" /\ is_newline c = false.
Proof. inversion 1; subst; eauto. Qed.

Lemma nullable_spec r : nullable r = true <-> matches r "".
Proof.
  induction r as [| | |c|r1 IH1 r2 IH2|r1 IH1 r2 IH2|r IH]; cbn.
  - split; [done|]. inversion 1.
  - split; [constructor|done].
  - split; [done|]. inversion 1.
  - split; [done|]. inversion 1.
  - rewrite andb_true_iff, IH1, IH2. split.
    + intros [H1 H2]. exact (matches_cat _ _ "" "" H1 H2).
    + intros H. apply matches_cat_inv in H as (s1 & s2 & E & H1 & H2).
      symmetry in E. apply append_eq_nil in E as [-> ->]. done.
  - rewrite orb_true_iff, IH1, IH2. split.
    + intros [H|H]; [by apply matches_alt_l|by apply matches_alt_r].
    + apply matches_alt_inv.
  - split; [constructor|done].
Qed.

Lemma matches_star_cons r c s :
  matches (Star r) (String c s) ->
  exists s1 s2, s = s1 +:+ s2 /\ matches r (String c s1) /\ matches (Star r) s2.
Proof.
  remember (Star r) as r' eqn:Er. remember (String c s) as str eqn:Es.
  intros H. revert s Es.
  induction H as [| | | | | | |r0 s1 s2 H1 _ H2 IH2]; try done.
  injection Er as ->. intros s Es.
  apply append_eq_cons in Es as [[-> ->]|(s1' & -> & ->)].
  - by apply IH2.
  - by exists s1', s2.
Qed.

Lemma deriv_spec c r s : matches (deriv c r) s <-> matches r (String c s).
Proof.
  revert s. induction r as [| | |d|r1 IH1 r2 IH2|r1 IH1 r2 IH2|r IH]; intros s; cbn.
  - split; inversion 1.
  - split; inversion 1.
  - destruct (is_newline c) eqn:En; split; intros H.
    + inversion H.
    + apply matches_any_inv in H as (c' & [= -> ->] & ?). congruence.
    + inversion H; subst. by constructor.
    + apply matches_any_inv in H as (c' & [= -> ->] & ?). constructor.
  - destruct (Ascii.eqb_spec c d) as [->|Hn]; split; intros H.
    + inversion H; subst. constructor.
    + apply matches_lit_inv in H as [= ->]. constructor.
    + inversion H.
    + apply matches_lit_inv in H as [= -> _]. done.
  - assert (matches (Cat (deriv c r1) r2) s ->
            matches (Cat r1 r2) (String c s)) as Hcat.
    { intros H. apply matches_cat_inv in H as (s1 & s2 & -> & H1 & H2).
      apply IH1 in H1. exact (matches_cat _ _ _ _ H1 H2). }
    assert (matches (Cat r1 r2) (String c s) ->
            (exists s1 s2, s = s1 +:+ s2 /\ matches (deriv c r1) s1
                           /\ matches r2 s2)
            \/ (matches r1 "" /\ matches (deriv c r2) s)) as Hinv.
    { intros H. apply matches_cat_inv in H as (s1 & s2 & E & H1 & H2).
      symmetry in E.
      apply append_eq_cons in E as [[-> ->]|(s1' & -> & ->)].
      - right. split; [done|]. by apply IH2.
      - left. exists s1', s2. split_and!; [done| |done]. by apply IH1. }
    destruct (nullable r1) eqn:En.
    + split.
      * intros H. apply matches_alt_inv in H as [H|H]; [by apply Hcat|].
        apply nullable_spec in En. apply IH2 in H.
        exact (matches_cat _ _ "" _ En H).
      * intros H. apply Hinv in H as [(s1 & s2 & -> & H1 & H2)|[_ H]].
        -- apply matches_alt_l. by constructor.
        -- by apply matches_alt_r.
    + split; [done|].
      intros H. apply Hinv in H as [(s1 & s2 & -> & H1 & H2)|[H _]].
      * by constructor.
      * apply nullable_spec in H. congruence.
  - split; intros H; apply matches_alt_inv in H as [H|H].
    + apply matches_alt_l. by apply IH1.
    + apply matches_alt_r. by apply IH2.
    + apply matches_alt_l. by apply IH1.
    + apply matches_alt_r. by apply IH2.
  - split.
    + intros H. apply matches_cat_inv in H as (s1 & s2 & -> & H1 & H2).
      apply IH in H1. exact (matches_star_app _ _ _ H1 H2).
    + intros H. apply matches_star_cons in H as (s1 & s2 & -> & H1 & H2).
      constructor; [by apply IH|done].
Qed.

Lemma match_here_spec r s :
  match_here r s = true <-> exists m rest, s = m +:+ rest /\ matches r m.
Proof.
  revert r. induction s as [|c s IH]; intros r; cbn [match_here].
  - rewrite orb_false_r, nullable_spec. split.
    + intros H. by exists "", "".
    + intros (m & rest & E & H). symmetry in E.
      apply append_eq_nil in E as [-> _]. done.
  - rewrite orb_true_iff, nullable_spec, IH. split.
    + intros [H|(m & rest & -> & H)].
      * by exists "", (String c s).
      * exists (String c m), rest. split; [done|]. by apply deriv_spec.
    + intros (m & rest & E & H). symmetry in E.
      apply append_eq_cons in E as [[-> _]|(m' & -> & ->)]; [by left|].
      right. exists m', rest. split; [done|]. by apply deriv_spec.
Qed.

Lemma search_from_spec r s :
  search_from r s = true <->
  exists before m after, s = before +:+ m +:+ after /\ matches r m.
Proof.
  induction s as [|c s IH]; cbn [search_from].
  - rewrite orb_false_r, match_here_spec. split.
    + intros (m & rest & E & H). by exists "", m, rest.
    + intros (b & m & a & E & H). symmetry in E.
      apply append_eq_nil in E as [-> E]. by exists m, a.
  - rewrite orb_true_iff, match_here_spec, IH. split.
    + intros [(m & rest & E & H)|(b & m & a & -> & H)].
      * by exists "", m, rest.
      * by exists (String c b), m, a.
    + intros (b & m & a & E & H). symmetry in E.
      apply append_eq_cons in E as [[-> E]|(b' & -> & ->)].
      * left. by exists m, a.
      * right. by exists b', m, a.
Qed.

(** X7: the pattern of docs/conf.py is a valid pattern, and it is found
    in a path exactly when the path contains [.py] somewhere: the leading
    [/*] changes nothing, and what follows [.py] does not matter. *)
Theorem filename_pattern_selects (path : string) :
  (search filename_pattern path = Some true
   <-> exists before after, path = before +:+ ".py" +:+ after)
  /\ search filename_pattern path = search "\.py" path.
Proof.
  assert (forall r, (forall m, matches r m -> exists pre, m = pre +:+ ".py") ->
            matches r ".py" ->
            search_from r path = true
            <-> exists before after, path = before +:+ ".py" +:+ after) as Hsel.
  { intros r Hr Hpy. rewrite search_from_spec. split.
    - intros (b & m & a & -> & H). apply Hr in H as [pre ->].
      exists (b +:+ pre), a. by rewrite !append_assoc.
    - intros (b & a & ->). by exists b, ".py", a. }
  assert (matches (Cat (Lit ".") (Cat (Lit "p") (Lit "y"))) ".py") as Hpy.
  { apply (matches_cat _ _ "." "py"); [constructor|].
    apply (matches_cat _ _ "p" "y"); constructor. }
  assert (forall m, matches (Cat (Lit ".") (Cat (Lit "p") (Lit "y"))) m ->
            m = ".py") as Hinv.
  { intros m H.
    apply matches_cat_inv in H as (d & s3 & -> & Hd & H).
    apply matches_cat_inv in H as (p & y & -> & Hp & Hy).
    apply matches_lit_inv in Hd as ->. apply matches_lit_inv in Hp as ->.
    by apply matches_lit_inv in Hy as ->. }
  pose proof (Hsel (Cat (Star (Lit "/")) (Cat (Lit ".") (Cat (Lit "p") (Lit "y")))))
    as H1.
  pose proof (Hsel (Cat (Lit ".") (Cat (Lit "p") (Lit "y")))) as H2.
  unfold search.
  change (compile filename_pattern)
    with (Some (Cat (Star (Lit "/")) (Cat (Lit ".") (Cat (Lit "p") (Lit "y"))))).
  change (compile "\.py")
    with (Some (Cat (Lit ".") (Cat (Lit "p") (Lit "y")))).
  cbn [fmap option_fmap option_map].
  assert (search_from (Cat (Star (Lit "/"))
                         (Cat (Lit ".") (Cat (Lit "p") (Lit "y")))) path = true
          <-> exists before after, path = before +:+ ".py" +:+ after) as E1.
  { apply H1.
    - intros m H. apply matches_cat_inv in H as (s1 & s2 & -> & _ & H).
      apply Hinv in H as ->. by exists s1.
    - apply (matches_cat _ _ "" ".py"); [constructor|done]. }
  assert (search_from (Cat (Lit ".") (Cat (Lit "p") (Lit "y"))) path = true
          <-> exists before after, path = before +:+ ".py" +:+ after) as E2.
  { apply H2; [|done]. intros m H. apply Hinv in H as ->. by exists "". }
  split.
  - rewrite <- E1. split; [by intros [= ->]|by intros ->].
  - f_equal. apply eq_true_iff_eq. by rewrite E1, E2.
Qed.

(** ** Instances *)

Lemma help_anywhere_witness :
  bootstrap ["/tmp/a"; "-x"; "-h"; "--"; "/tmp/b"] fresh
  = Run 0 [] fresh (ParserMessage HelpText).
Proof.
  exact (help_anywhere fetch write_default_config ["/tmp/a"; "-x"] "-h"
           ["--"; "/tmp/b"] fresh eq_refl eq_refl).
Defined.

Lemma exit_status_meaning_witness : usage_error (bootstrap ["-x"] fresh).
Proof.
  apply (proj1 (proj1 (proj2 (exit_status_meaning fetch write_default_config
                                ["-x"] fresh))) eq_refl).
Defined.

Lemma single_argument_reaches_download_witness :
  _parse_optional "/tmp/test_env" = Positional
  /\ existsb is_download (trace (bootstrap ["/tmp/test_env"] fresh)) = true.
Proof.
  pose proof (single_argument_reaches_download fetch write_default_config
                "/tmp/test_env" fresh) as [Hiff Hpos].
  assert (_parse_optional "/tmp/test_env" = Positional) as H.
  { apply Hpos. right. exists "/"%char, "tmp/test_env". by split. }
  split; [exact H|by apply Hiff].
Defined.

Lemma surplus_positionals_named_witness :
  parse_args ["/tmp/a"; "/tmp/b"; "/tmp/c"]
  = SystemExit 2 (ErrUnrecognized ["/tmp/b"; "/tmp/c"]).
Proof.
  exact (surplus_positionals_named "/tmp/a" "/tmp/b" ["/tmp/c"] eq_refl).
Defined.

Lemma unknown_options_report_missing_argument_witness :
  parse_args ["-x"; "--force"] = SystemExit 2 (ErrRequired ["dest_dir"]).
Proof.
  exact (unknown_options_report_missing_argument ["-x"; "--force"] eq_refl).
Defined.

Lemma download_kept_when_config_fails_witness :
  exit_status (bootstrap ["/tmp/test_env"] unwritable) = 1%Z
  /\ files (final (bootstrap ["/tmp/test_env"] unwritable))
       !! "/tmp/test_env/README" = Some "reference data".
Proof.
  destruct (download_kept_when_config_fails fetch write_default_config
              ["/tmp/test_env"] unwritable eq_refl)
    as (d & w1 & exc & _ & _ & _ & _ & He).
  split; [exact He|reflexivity].
Defined.

Lemma filename_pattern_selects_witness :
  search filename_pattern "examples/plot_nowcast.py" = Some true.
Proof.
  apply (proj1 (filename_pattern_selects "examples/plot_nowcast.py")).
  by exists "examples/plot_nowcast", "".
Defined.
